(** * A typed Redis hash cache: async_rediscache.types.cache.RedisCache

    Shallow embedding of [src/async_rediscache/types/cache.py].

    - The Redis hash that backs one cache is its namespace: a map from field
      to value, both strings ([gmap string string]).  Every command the cache
      issues is addressed by [self.namespace], so one namespace is modelled.
    - Python keys are [str] or [int]; values are [str], [int], [float] or
      [bool].  A float is a binary64 number (Rocq's primitive [float]).
    - A cache operation is a state-and-error computation over the hash: it
      returns its result or the exception it raised, together with the hash
      as the Redis commands it already sent left it.
    - The typestring codec and the namespace lock live in [types/base.py],
      which is not part of these sources; they are modelled from the spec. *)

From Stdlib Require Import ZArith String Ascii Decimal DecimalString DecimalPos DecimalZ.
From Stdlib Require Import PrimFloat SpecFloat FloatOps FloatAxioms.
From stdpp Require Import base gmap strings list.

Open Scope Z_scope.

(** ** Python data *)

(** [RedisKeyType = Union[str, int]] *)
Inductive RedisKey : Type :=
| KStr (s : string)
| KInt (z : Z).

#[global] Instance RedisKey_eq_dec : EqDecision RedisKey.
Proof. solve_decision. Defined.

(** [RedisValueType = Union[str, int, float, bool]] *)
Inductive RedisValue : Type :=
| VStr (s : string)
| VInt (z : Z)
| VFloat (f : float)
| VBool (b : bool).

(** A numeric [amount] of [increment]/[decrement]: an [int] or a [float]. *)
Inductive Num : Type :=
| NInt (z : Z)
| NFloat (f : float).

(** Exceptions a cache operation can raise.  [KeyError] is the spec's
    MissingKeyError, [TypeError] its UnsupportedTypeError, [CorruptDataError]
    is raised by the codec on an untagged string, [ValueError] by the Redis
    client on an empty multi-field write, and [OverflowError] by Python when
    an [int] is too large to be converted to a [float]. *)
Inductive error : Type :=
| KeyError
| TypeError
| CorruptDataError
| ValueError
| OverflowError.

Inductive result (A : Type) : Type :=
| Ok (a : A)
| Err (e : error).
Arguments Ok {A} a.
Arguments Err {A} e.

(** ** Textual forms *)

(** Decimal text of a Python [int]: [str(z)]. *)
Definition int_text (z : Z) : string :=
  NilEmpty.string_of_int (Z.to_int z).

(** [int(s)] on the text of an [int]. *)
Definition int_parse (s : string) : option Z :=
  match s with
  | EmptyString => None
  | _ => option_map Z.of_int (NilEmpty.int_of_string s)
  end.

(** Split at the first occurrence of character [c]. *)
Fixpoint split_at (c : ascii) (s : string) : option (string * string) :=
  match s with
  | EmptyString => None
  | String a s' =>
      if Ascii.eqb a c then Some (EmptyString, s')
      else option_map (fun '(l, r) => (String a l, r)) (split_at c s')
  end.

(** Remove a prefix, when present. *)
Fixpoint strip_prefix (p s : string) : option string :=
  match p, s with
  | EmptyString, _ => Some s
  | String c p', String d s' => if Ascii.eqb c d then strip_prefix p' s' else None
  | String _ _, EmptyString => None
  end.

(** Modelled from the spec: the canonical textual form of a [float] (the
    codec of [types/base.py] is not part of these sources).  The spec asks
    only for a canonical, losslessly parsable text; a finite number is
    written as its binary scientific form [m p e] (value [m * 2^e]). *)
Definition float_text (f : float) : string :=
  match Prim2SF f with
  | S754_zero false => "0.0"
  | S754_zero true => "-0.0"
  | S754_infinity false => "inf"
  | S754_infinity true => "-inf"
  | S754_nan => "nan"
  | S754_finite s m e =>
      String.append (int_text (if s then Zneg m else Zpos m))
        (String "p" (int_text e))
  end.

(** Modelled from the spec: [float(s)] on a canonical float text. *)
Definition float_parse (t : string) : option float :=
  match split_at "p" t with
  | Some (a, b) =>
      match int_parse a, int_parse b with
      | Some (Zpos m), Some e => Some (SF2Prim (S754_finite false m e))
      | Some (Zneg m), Some e => Some (SF2Prim (S754_finite true m e))
      | _, _ => None
      end
  | None =>
      if String.eqb t "0.0" then Some (SF2Prim (S754_zero false))
      else if String.eqb t "-0.0" then Some (SF2Prim (S754_zero true))
      else if String.eqb t "inf" then Some (SF2Prim (S754_infinity false))
      else if String.eqb t "-inf" then Some (SF2Prim (S754_infinity true))
      else if String.eqb t "nan" then Some (SF2Prim S754_nan)
      else None
  end.

(** ** The typestring codec *)

(** Modelled from the spec: [_key_to_typestring].  A type tag followed by
    the literal text of the key. *)
Definition key_to_typestring (k : RedisKey) : string :=
  match k with
  | KStr s => String.append "STRING:" s
  | KInt z => String.append "INT:" (int_text z)
  end.

(** Modelled from the spec: [_value_to_typestring]; one tag per type, so a
    [bool] never shares the [int] tag. *)
Definition value_to_typestring (v : RedisValue) : string :=
  match v with
  | VStr s => String.append "STRING:" s
  | VInt z => String.append "INT:" (int_text z)
  | VFloat f => String.append "FLOAT:" (float_text f)
  | VBool b => String.append "BOOL:" (if b then "True" else "False")
  end.

(** Modelled from the spec: [_key_from_typestring]; an unknown tag is
    CorruptDataError. *)
Definition key_from_typestring (w : string) : result RedisKey :=
  match strip_prefix "STRING:" w with
  | Some s => Ok (KStr s)
  | None =>
      match strip_prefix "INT:" w with
      | Some t => match int_parse t with Some z => Ok (KInt z) | None => Err CorruptDataError end
      | None => Err CorruptDataError
      end
  end.

(** Modelled from the spec: [_value_from_typestring]. *)
Definition value_from_typestring (w : string) : result RedisValue :=
  match strip_prefix "STRING:" w with
  | Some s => Ok (VStr s)
  | None =>
  match strip_prefix "INT:" w with
  | Some t => match int_parse t with Some z => Ok (VInt z) | None => Err CorruptDataError end
  | None =>
  match strip_prefix "FLOAT:" w with
  | Some t => match float_parse t with Some f => Ok (VFloat f) | None => Err CorruptDataError end
  | None =>
  match strip_prefix "BOOL:" w with
  | Some t =>
      if String.eqb t "True" then Ok (VBool true)
      else if String.eqb t "False" then Ok (VBool false)
      else Err CorruptDataError
  | None => Err CorruptDataError
  end end end end.

(** Modelled from the spec: [_dict_to_typestring], element-wise. *)
Definition dict_to_typestring (items : list (RedisKey * RedisValue))
  : list (string * string) :=
  map (fun '(k, v) => (key_to_typestring k, value_to_typestring v)) items.

(** Modelled from the spec: [_dict_from_typestring], element-wise. *)
Fixpoint dict_from_typestring (d : list (string * string))
  : result (list (RedisKey * RedisValue)) :=
  match d with
  | [] => Ok []
  | (f, w) :: d' =>
      match key_from_typestring f, value_from_typestring w, dict_from_typestring d' with
      | Ok k, Ok v, Ok l => Ok ((k, v) :: l)
      | Err e, _, _ => Err e
      | _, Err e, _ => Err e
      | _, _, Err e => Err e
      end
  end.

(** ** Cache operations as state-and-error computations over the hash *)

Definition M (A : Type) : Type := gmap string string -> result A * gmap string string.

Definition ret {A} (a : A) : M A := fun h => (Ok a, h).
Definition raise {A} (e : error) : M A := fun h => (Err e, h).
Definition bind {A B} (m : M A) (k : A -> M B) : M B :=
  fun h => match m h with
           | (Ok a, h') => k a h'
           | (Err e, h') => (Err e, h')
           end.
Definition lift {A} (r : result A) : M A :=
  match r with Ok a => ret a | Err e => raise e end.

Declare Scope cache_scope.
Delimit Scope cache_scope with cache.
Notation "x <- m ;; k" := (bind m (fun x => k))
  (at level 100, m at next level, right associativity) : cache_scope.
Notation "m ;;; k" := (bind m (fun _ => k))
  (at level 100, right associativity) : cache_scope.
Local Open Scope cache_scope.

(** *** Redis hash commands (aioredis), on the namespace's hash *)

(** HSET: integer reply, 1 if the field is new. *)
Definition hset (f w : string) : M Z :=
  fun h => (Ok (match h !! f with Some _ => 0 | None => 1 end), <[f := w]> h).

(** HGET: the value, or [None] when the field is absent. *)
Definition hget (f : string) : M (option string) :=
  fun h => (Ok (h !! f), h).

(** HDEL: integer reply, the number of fields removed (0 or 1). *)
Definition hdel (f : string) : M Z :=
  fun h => (Ok (match h !! f with Some _ => 1 | None => 0 end), delete f h).

(** HEXISTS *)
Definition hexists (f : string) : M bool :=
  fun h => (Ok (bool_decide (is_Some (h !! f))), h).

(** HGETALL: a fresh dict of all the fields. *)
Definition hgetall : M (list (string * string)) :=
  fun h => (Ok (map_to_list h), h).

(** HLEN *)
Definition hlen : M Z :=
  fun h => (Ok (Z.of_nat (size h)), h).

(** [hmset_dict(key, d)]: HMSET of every pair, in the dict's order.  The
    client refuses an empty dict with ValueError (HMSET itself needs at
    least one field-value pair). *)
Definition hmset_dict (d : list (string * string)) : M unit :=
  match d with
  | [] => raise ValueError
  | _ => fun h => (Ok tt, foldl (fun acc '(f, w) => <[f := w]> acc) h d)
  end.

(** DEL of the whole hash. *)
Definition del : M unit :=
  fun _ => (Ok tt, ∅).

(** *** Python arithmetic used by [increment] *)

(** [float(z)]: rounded to nearest-even; OverflowError when the rounded
    value is out of the binary64 range. *)
Definition int_to_float (z : Z) : result float :=
  match binary_normalize prec emax z 0 false with
  | S754_infinity _ => Err OverflowError
  | sf => Ok (SF2Prim sf)
  end.

Definition bool_to_int (b : bool) : Z := if b then 1 else 0.

(** [isinstance(value, int)]: [bool] is a subclass of [int] in Python. *)
Definition isinstance_int (v : RedisValue) : bool :=
  match v with VInt _ | VBool _ => true | _ => false end.

(** [isinstance(value, float)] *)
Definition isinstance_float (v : RedisValue) : bool :=
  match v with VFloat _ => true | _ => false end.

(** [value + amount] in Python: [int + int] is an [int] ([True] counts as
    [1]); a mixed sum converts the [int] to [float]; [str + number] raises
    TypeError. *)
Definition py_add (v : RedisValue) (a : Num) : result RedisValue :=
  match v, a with
  | VInt z, NInt y => Ok (VInt (z + y))
  | VBool b, NInt y => Ok (VInt (bool_to_int b + y))
  | VInt z, NFloat g =>
      match int_to_float z with Ok f => Ok (VFloat (PrimFloat.add f g)) | Err e => Err e end
  | VBool b, NFloat g =>
      match int_to_float (bool_to_int b) with
      | Ok f => Ok (VFloat (PrimFloat.add f g)) | Err e => Err e end
  | VFloat f, NInt y =>
      match int_to_float y with Ok g => Ok (VFloat (PrimFloat.add f g)) | Err e => Err e end
  | VFloat f, NFloat g => Ok (VFloat (PrimFloat.add f g))
  | VStr _, _ => Err TypeError
  end.

(** [-amount] *)
Definition py_neg (a : Num) : Num :=
  match a with NInt z => NInt (- z) | NFloat f => NFloat (PrimFloat.opp f) end.

(** *** [RedisCache]

    Each method is its body with the lock already held ([acquire_lock=False]);
    the lock itself only matters for interleavings, see [Concurrent] below. *)

Module RedisCache.

(** [set] *)
Definition set (key : RedisKey) (value : RedisValue) : M unit :=
  let key := key_to_typestring key in
  let value := value_to_typestring value in
  hset key value ;;; ret tt.

(** [get]: [None] is Python's [None]. *)
Definition get (key : RedisKey) (default : option RedisValue) : M (option RedisValue) :=
  let key := key_to_typestring key in
  value <- hget key ;;
  match value with
  | None => ret default
  | Some w => v <- lift (value_from_typestring w) ;; ret (Some v)
  end.

(** [delete]: [return await connection.hdel(self.namespace, key)]. *)
Definition delete (key : RedisKey) : M Z :=
  let key := key_to_typestring key in
  hdel key.

(** [contains] *)
Definition contains (key : RedisKey) : M bool :=
  let key := key_to_typestring key in
  hexists key.

(** [items] *)
Definition items : M (list (RedisKey * RedisValue)) :=
  d <- hgetall ;; lift (dict_from_typestring d).

(** [length] *)
Definition length : M Z := hlen.

(** [to_dict] *)
Definition to_dict : M (list (RedisKey * RedisValue)) := items.

(** [clear] *)
Definition clear : M unit := del.

(** [pop] *)
Definition pop (key : RedisKey) (default : option RedisValue) : M (option RedisValue) :=
  value <- get key default ;;
  delete key ;;;
  ret value.

(** [update] *)
Definition update (items : list (RedisKey * RedisValue)) : M unit :=
  hmset_dict (dict_to_typestring items).

(** The part of [increment] after [value = await self.get(key)]. *)
Definition increment_rest (key : RedisKey) (amount : Num) (value : option RedisValue) : M unit :=
  match value with
  | None => raise KeyError
  | Some v =>
      if isinstance_int v || isinstance_float v then
        value <- lift (py_add v amount) ;;
        set key value
      else raise TypeError
  end.

(** [increment] *)
Definition increment (key : RedisKey) (amount : Num) : M unit :=
  value <- get key None ;;
  increment_rest key amount value.

(** [decrement] *)
Definition decrement (key : RedisKey) (amount : Num) : M unit :=
  increment key (py_neg amount).

End RedisCache.

(** The caller-side alternative to [update]: one [set] per pair of the
    mapping, in the mapping's order. *)
Fixpoint set_each (items : list (RedisKey * RedisValue)) : M unit :=
  match items with
  | [] => ret tt
  | (k, v) :: items' => RedisCache.set k v ;;; set_each items'
  end.

(** *** Two concurrent [increment] calls on one cache instance

    Modelled from the spec: [namespace_lock] (in [types/base.py], not part of
    these sources) wraps each public method in one acquisition of the cache's
    namespace lock, released on every exit path.  A task running
    [increment(key, amount)] moves through the await points of its body:
    it waits for the lock, reads the value ([self.get], one HGET), runs the
    rest of the body ([increment_rest], whose HSET is its last command), and
    releases the lock.  Between two steps the scheduler may run any other
    task. *)
Module Concurrent.

Inductive tid : Type := T1 | T2.

Inductive phase : Type :=
| Waiting
| Getting
| GotValue (v : option RedisValue)
| Releasing (r : result unit)
| Finished (r : result unit).

Record state : Type := mkState {
  store : gmap string string;
  lock : option tid;
  task1 : phase;
  task2 : phase
}.

Section Steps.
Variable key : RedisKey.
Variable amount : Num.

(** One step of task [t]: its hash and lock before and after. *)
Inductive task_step (t : tid) :
  gmap string string -> option tid -> phase ->
  gmap string string -> option tid -> phase -> Prop :=
| ts_acquire h :
    task_step t h None Waiting h (Some t) Getting
| ts_get h h' v :
    RedisCache.get key None h = (Ok v, h') ->
    task_step t h (Some t) Getting h' (Some t) (GotValue v)
| ts_get_raise h h' e :
    RedisCache.get key None h = (Err e, h') ->
    task_step t h (Some t) Getting h' (Some t) (Releasing (Err e))
| ts_rest h h' v r :
    RedisCache.increment_rest key amount v h = (r, h') ->
    task_step t h (Some t) (GotValue v) h' (Some t) (Releasing r)
| ts_release h r :
    task_step t h (Some t) (Releasing r) h None (Finished r).

(** The scheduler runs one step of either task. *)
Inductive step : state -> state -> Prop :=
| step_T1 h l p1 p2 h' l' p1' :
    task_step T1 h l p1 h' l' p1' ->
    step (mkState h l p1 p2) (mkState h' l' p1' p2)
| step_T2 h l p1 p2 h' l' p2' :
    task_step T2 h l p2 h' l' p2' ->
    step (mkState h l p1 p2) (mkState h' l' p1 p2').

End Steps.

(** Both tasks about to call [increment] on the hash [h]. *)
Definition init (h : gmap string string) : state := mkState h None Waiting Waiting.

(** Any interleaving the scheduler permits. *)
Definition runs (key : RedisKey) (amount : Num) : state -> state -> Prop :=
  rtc (step key amount).

(** A task that holds the lock. *)
Definition holding (p : phase) : Prop :=
  match p with Getting | GotValue _ | Releasing _ => True | _ => False end.

(** The phase [p] of a task that started its [increment] on the hash [st]
    agrees with the current hash [h]. *)
Definition local_ok (key : RedisKey) (amount : Num) (st : gmap string string)
    (p : phase) (h : gmap string string) : Prop :=
  match p with
  | Waiting | Getting => h = st
  | GotValue v => RedisCache.get key None st = (Ok v, h)
  | Releasing r | Finished r => RedisCache.increment key amount st = (r, h)
  end.

(** At most one task holds the lock, and the tasks ran one after the other:
    the first one, from [h0], and the second one, not yet started or from
    the hash the first one left. *)
Definition inv (key : RedisKey) (amount : Num) (h0 : gmap string string) (s : state) : Prop :=
  (lock s = None /\ ~ holding (task1 s) /\ ~ holding (task2 s) \/
   lock s = Some T1 /\ holding (task1 s) /\ ~ holding (task2 s) \/
   lock s = Some T2 /\ holding (task2 s) /\ ~ holding (task1 s)) /\
  ((task2 s = Waiting /\ local_ok key amount h0 (task1 s) (store s)) \/
   (task1 s = Waiting /\ local_ok key amount h0 (task2 s) (store s)) \/
   (exists r1 h1, task1 s = Finished r1 /\
      RedisCache.increment key amount h0 = (r1, h1) /\
      local_ok key amount h1 (task2 s) (store s)) \/
   (exists r2 h1, task2 s = Finished r2 /\
      RedisCache.increment key amount h0 = (r2, h1) /\
      local_ok key amount h1 (task1 s) (store s))).

End Concurrent.

(** *** Hashes written by the cache

    Every field the cache writes is the typestring of a key and every value
    the typestring of a value.  [entry_ok] checks one pair by decoding it and
    re-encoding the result. *)
Definition entry_ok (f w : string) : bool :=
  match key_from_typestring f, value_from_typestring w with
  | Ok k, Ok v => String.eqb (key_to_typestring k) f && String.eqb (value_to_typestring v) w
  | _, _ => false
  end.

Definition cache_written (h : gmap string string) : Prop :=
  map_Forall (fun f w => entry_ok f w = true) h.

(** ** The codec round-trips *)

Lemma strip_prefix_app p t : strip_prefix p (String.append p t) = Some t.
Proof. induction p as [|c p IH]; simpl; [done|]. by rewrite Ascii.eqb_refl. Qed.

Lemma split_at_app c a b :
  split_at c a = None -> split_at c (String.append a (String c b)) = Some (a, b).
Proof.
  induction a as [|x a IH]; simpl.
  - by rewrite Ascii.eqb_refl.
  - destruct (Ascii.eqb x c); [done|].
    destruct (split_at c a); [done|]. intros _. by rewrite IH.
Qed.

Lemma split_at_digits u : split_at "p" (NilEmpty.string_of_uint u) = None.
Proof. induction u; simpl; rewrite ?IHu; done. Qed.

Lemma split_at_int_text z : split_at "p" (int_text z) = None.
Proof.
  unfold int_text. destruct (Z.to_int z); simpl; by rewrite split_at_digits.
Qed.

Lemma int_text_nonempty z : int_text z <> EmptyString.
Proof.
  unfold int_text. destruct z as [|p|p]; simpl; [done| |done].
  generalize (DecimalPos.Unsigned.to_uint_nonnil p).
  destruct (Pos.to_uint p); done.
Qed.

Lemma int_parse_text z : int_parse (int_text z) = Some z.
Proof.
  unfold int_parse. pose proof (int_text_nonempty z) as Hne.
  destruct (int_text z) eqn:E; [done|].
  rewrite <- E. unfold int_text. rewrite NilEmpty.isi. simpl.
  by rewrite DecimalZ.of_to.
Qed.

Lemma float_parse_text f : float_parse (float_text f) = Some f.
Proof.
  rewrite <- (SF2Prim_Prim2SF f) at 2. unfold float_text.
  destruct (Prim2SF f) as [[]|[]| |s m e]; try reflexivity.
  unfold float_parse. rewrite split_at_app by apply split_at_int_text.
  rewrite !int_parse_text. by destruct s.
Qed.

Lemma value_roundtrip v : value_from_typestring (value_to_typestring v) = Ok v.
Proof.
  destruct v as [s|z|f|[]]; unfold value_from_typestring, value_to_typestring;
    rewrite ?strip_prefix_app; try reflexivity; simpl.
  - by rewrite int_parse_text.
  - by rewrite float_parse_text.
Qed.

Lemma key_roundtrip k : key_from_typestring (key_to_typestring k) = Ok k.
Proof.
  destruct k as [s|z]; unfold key_from_typestring, key_to_typestring;
    rewrite ?strip_prefix_app; try reflexivity; simpl.
  by rewrite int_parse_text.
Qed.

Lemma key_to_typestring_inj k1 k2 :
  key_to_typestring k1 = key_to_typestring k2 -> k1 = k2.
Proof.
  intros E. apply (f_equal key_from_typestring) in E.
  rewrite !key_roundtrip in E. congruence.
Qed.

Lemma value_to_typestring_inj v1 v2 :
  value_to_typestring v1 = value_to_typestring v2 -> v1 = v2.
Proof.
  intros E. apply (f_equal value_from_typestring) in E.
  rewrite !value_roundtrip in E. congruence.
Qed.

(** ** Running the cache operations *)

Section Runs.
Implicit Types (h : gmap string string) (k : RedisKey) (v : RedisValue).

Lemma set_run h k v :
  RedisCache.set k v h =
  (Ok tt, <[key_to_typestring k := value_to_typestring v]> h).
Proof. reflexivity. Qed.

Lemma get_run_absent h k d :
  h !! key_to_typestring k = None -> RedisCache.get k d h = (Ok d, h).
Proof. intros E. unfold RedisCache.get, bind, hget. by rewrite E. Qed.

Lemma get_run_present h k d w :
  h !! key_to_typestring k = Some w ->
  RedisCache.get k d h =
  (match value_from_typestring w with Ok v => Ok (Some v) | Err e => Err e end, h).
Proof.
  intros E. unfold RedisCache.get, bind, hget. rewrite E.
  by destruct (value_from_typestring w).
Qed.

Lemma get_run_stored h k d v :
  h !! key_to_typestring k = Some (value_to_typestring v) ->
  RedisCache.get k d h = (Ok (Some v), h).
Proof. intros E. by rewrite (get_run_present _ _ _ _ E), value_roundtrip. Qed.

Lemma increment_run h k a :
  RedisCache.increment k a h =
  match RedisCache.get k None h with
  | (Ok value, h') => RedisCache.increment_rest k a value h'
  | (Err e, h') => (Err e, h')
  end.
Proof. reflexivity. Qed.

Lemma increment_run_stored h k a v :
  h !! key_to_typestring k = Some (value_to_typestring v) ->
  RedisCache.increment k a h =
  if isinstance_int v || isinstance_float v then
    match py_add v a with
    | Ok r => (Ok tt, <[key_to_typestring k := value_to_typestring r]> h)
    | Err e => (Err e, h)
    end
  else (Err TypeError, h).
Proof.
  intros E. rewrite increment_run, (get_run_stored _ _ _ _ E). simpl.
  destruct (isinstance_int v || isinstance_float v); [|done].
  unfold bind, lift. by destruct (py_add v a).
Qed.

Lemma increment_run_absent h k a :
  h !! key_to_typestring k = None -> RedisCache.increment k a h = (Err KeyError, h).
Proof. intros E. by rewrite increment_run, (get_run_absent _ _ _ E). Qed.

End Runs.

(** ** Claims *)

(** C1: after [set(key, value)], [get(key)] returns exactly [value], with
    its type; in particular [1] and ["1"] stored under two different keys
    read back as the [int] 1 and the [str] "1". *)
Theorem set_then_get :
  (forall (h : gmap string string) k v d,
     (RedisCache.set k v ;;; RedisCache.get k d) h =
     (Ok (Some v), <[key_to_typestring k := value_to_typestring v]> h)) /\
  (forall (h : gmap string string) k1 k2, k1 <> k2 ->
     let h' := snd (RedisCache.set k2 (VStr "1") (snd (RedisCache.set k1 (VInt 1) h))) in
     fst (RedisCache.get k1 None h') = Ok (Some (VInt 1)) /\
     fst (RedisCache.get k2 None h') = Ok (Some (VStr "1"))).
Proof.
  split.
  - intros h k v d. unfold bind at 1. rewrite set_run.
    apply get_run_stored. by rewrite lookup_insert_eq.
  - intros h k1 k2 Hne h'. subst h'. rewrite !set_run. simpl.
    split.
    + rewrite (get_run_stored _ _ _ (VInt 1)); [done|].
      rewrite lookup_insert_ne; [by rewrite lookup_insert_eq|].
      intros E. apply Hne. by apply key_to_typestring_inj.
    + rewrite (get_run_stored _ _ _ (VStr "1")); [done|].
      by rewrite lookup_insert_eq.
Qed.

Lemma set_then_get_witness :
  KInt 1 <> KStr "1" /\
  (let h' := snd (RedisCache.set (KStr "1") (VStr "1") (snd (RedisCache.set (KInt 1) (VInt 1) ∅))) in
   fst (RedisCache.get (KInt 1) None h') = Ok (Some (VInt 1)) /\
   fst (RedisCache.get (KStr "1") None h') = Ok (Some (VStr "1"))).
Proof.
  split; [discriminate|].
  apply (proj2 set_then_get ∅ (KInt 1) (KStr "1")). discriminate.
Defined.

(** C6: on a key absent from the namespace, [get(key, default)] returns
    [default] without raising and without touching the hash, and [None]
    when no default is given. *)
Theorem get_absent_default (h : gmap string string) k d :
  h !! key_to_typestring k = None ->
  RedisCache.get k d h = (Ok d, h) /\ RedisCache.get k None h = (Ok None, h).
Proof. intros E. split; by apply get_run_absent. Qed.

Lemma get_absent_default_witness :
  (∅ : gmap string string) !! key_to_typestring (KStr "missing") = None /\
  RedisCache.get (KStr "missing") (Some (VInt 7)) ∅ = (Ok (Some (VInt 7)), ∅) /\
  RedisCache.get (KStr "missing") None ∅ = (Ok None, ∅).
Proof.
  split; [reflexivity|]. apply get_absent_default. reflexivity.
Defined.

(** C4 (the code returns HDEL's reply): on an absent key, [delete(key)]
    raises nothing and leaves the hash as it was, but it returns the integer
    reply [0] of HDEL rather than [None]. *)
Theorem delete_absent_returns_zero (h : gmap string string) k :
  h !! key_to_typestring k = None -> RedisCache.delete k h = (Ok 0, h).
Proof.
  intros E. unfold RedisCache.delete, hdel. rewrite E. f_equal.
  by apply delete_id.
Qed.

Lemma delete_absent_returns_zero_witness :
  (∅ : gmap string string) !! key_to_typestring (KStr "k") = None /\
  RedisCache.delete (KStr "k") ∅ = (Ok 0, ∅).
Proof. split; [reflexivity|]. apply delete_absent_returns_zero. reflexivity. Defined.

(** C5: [pop(key, default)] on a present key returns its decoded value and
    deletes it, so [contains(key)] is then false; on an absent key it returns
    [default] and leaves the hash unchanged. *)
Theorem pop_spec :
  (forall (h : gmap string string) k d w v,
     h !! key_to_typestring k = Some w -> value_from_typestring w = Ok v ->
     RedisCache.pop k d h = (Ok (Some v), delete (key_to_typestring k) h) /\
     RedisCache.contains k (delete (key_to_typestring k) h) =
       (Ok false, delete (key_to_typestring k) h)) /\
  (forall (h : gmap string string) k d,
     h !! key_to_typestring k = None -> RedisCache.pop k d h = (Ok d, h)).
Proof.
  split.
  - intros h k d w v Hw Hv. split.
    + unfold RedisCache.pop. unfold bind at 1.
      rewrite (get_run_present _ _ _ _ Hw), Hv. reflexivity.
    + unfold RedisCache.contains, hexists. rewrite lookup_delete_eq. reflexivity.
  - intros h k d E. unfold RedisCache.pop. unfold bind at 1.
    rewrite (get_run_absent _ _ _ E). unfold bind, RedisCache.delete, hdel. cbv beta zeta.
    rewrite delete_id by done. reflexivity.
Qed.

Lemma pop_spec_witness :
  let h := <["STRING:k" := "INT:5"]> (∅ : gmap string string) in
  (h !! key_to_typestring (KStr "k") = Some "INT:5" /\
   value_from_typestring "INT:5" = Ok (VInt 5) /\
   RedisCache.pop (KStr "k") None h = (Ok (Some (VInt 5)), delete "STRING:k" h)) /\
  (h !! key_to_typestring (KStr "x") = None /\
   RedisCache.pop (KStr "x") (Some (VBool false)) h = (Ok (Some (VBool false)), h)).
Proof.
  intros h. split.
  - split; [reflexivity|]. split; [reflexivity|].
    apply (proj1 pop_spec h (KStr "k") None "INT:5" (VInt 5)); reflexivity.
  - split; [reflexivity|]. apply (proj2 pop_spec). reflexivity.
Defined.

(** C7: [decrement(key, amount)] runs exactly [increment(key, -amount)]. *)
Theorem decrement_is_increment_neg (h : gmap string string) k a :
  RedisCache.decrement k a h = RedisCache.increment k (py_neg a) h.
Proof. reflexivity. Qed.

(** C2 (a stored [bool] is incremented): a stored [True] or [False] passes
    the [isinstance(value, int)] test, so [increment(key, n)] stores the
    [int] [bool + n] instead of raising TypeError. *)
Theorem increment_stored_bool (h : gmap string string) k b y :
  h !! key_to_typestring k = Some (value_to_typestring (VBool b)) ->
  RedisCache.increment k (NInt y) h =
  (Ok tt, <[key_to_typestring k := value_to_typestring (VInt (bool_to_int b + y))]> h).
Proof. intros E. by rewrite (increment_run_stored _ _ _ _ E). Qed.

Lemma increment_stored_bool_witness :
  let h := <["STRING:k" := "BOOL:True"]> (∅ : gmap string string) in
  h !! key_to_typestring (KStr "k") = Some (value_to_typestring (VBool true)) /\
  RedisCache.increment (KStr "k") (NInt 1) h = (Ok tt, <["STRING:k" := "INT:2"]> h).
Proof.
  intros h. split; [reflexivity|].
  apply (increment_stored_bool h (KStr "k") true 1). reflexivity.
Defined.

(** A stored [str] is refused: TypeError, and the hash is unchanged. *)
Lemma increment_stored_str (h : gmap string string) k s a :
  h !! key_to_typestring k = Some (value_to_typestring (VStr s)) ->
  RedisCache.increment k a h = (Err TypeError, h).
Proof. intros E. by rewrite (increment_run_stored _ _ _ _ E). Qed.

(** C3 (as amended): an absent key raises KeyError and writes nothing; a
    stored [int] or [float] is replaced by the Python sum [value + amount]
    (or the operation raises, writing nothing); for a stored [int],
    [increment(key, 2)] then [increment(key, -5)] leaves it exactly 3 less. *)
Theorem increment_spec :
  (forall (h : gmap string string) k a,
     h !! key_to_typestring k = None -> RedisCache.increment k a h = (Err KeyError, h)) /\
  (forall (h : gmap string string) k a v,
     h !! key_to_typestring k = Some (value_to_typestring v) ->
     (exists z, v = VInt z) \/ (exists f, v = VFloat f) ->
     RedisCache.increment k a h =
     match py_add v a with
     | Ok r => (Ok tt, <[key_to_typestring k := value_to_typestring r]> h)
     | Err e => (Err e, h)
     end) /\
  (forall (h : gmap string string) k z,
     h !! key_to_typestring k = Some (value_to_typestring (VInt z)) ->
     (RedisCache.increment k (NInt 2) ;;; RedisCache.increment k (NInt (-5))) h =
     (Ok tt, <[key_to_typestring k := value_to_typestring (VInt (z - 3))]> h)).
Proof.
  split; [|split].
  - apply increment_run_absent.
  - intros h k a v E [[z ->]|[f ->]]; by rewrite (increment_run_stored _ _ _ _ E).
  - intros h k z E. unfold bind at 1. rewrite (increment_run_stored _ _ _ _ E). simpl.
    rewrite (increment_run_stored _ _ _ (VInt (z + 2))) by (by rewrite lookup_insert_eq).
    simpl. rewrite insert_insert_eq. do 4 f_equal. lia.
Qed.

Lemma increment_spec_witness :
  let h := <["STRING:n" := "INT:10"]> (∅ : gmap string string) in
  (h !! key_to_typestring (KStr "missing") = None /\
   RedisCache.increment (KStr "missing") (NInt 1) h = (Err KeyError, h)) /\
  (h !! key_to_typestring (KStr "n") = Some (value_to_typestring (VInt 10)) /\
   RedisCache.increment (KStr "n") (NInt 1) h = (Ok tt, <["STRING:n" := "INT:11"]> h)) /\
  (RedisCache.increment (KStr "n") (NInt 2) ;;; RedisCache.increment (KStr "n") (NInt (-5))) h =
  (Ok tt, <["STRING:n" := "INT:7"]> h).
Proof.
  intros h. split; [|split].
  - split; [reflexivity|]. apply (proj1 increment_spec). reflexivity.
  - split; [reflexivity|].
    apply (proj1 (proj2 increment_spec) h (KStr "n") (NInt 1) (VInt 10)); [reflexivity|].
    left. exists 10. reflexivity.
  - apply (proj2 (proj2 increment_spec) h (KStr "n") 10). reflexivity.
Defined.

(** C3 fails for a stored [float]: each sum is rounded to binary64, and
    [4503599627370495.5 + 2 - 5] is [4503599627370493.0], while
    [4503599627370495.5 - 3] is [4503599627370492.5]. *)
Lemma increment_float_net_not_minus_3 :
  let x := 4503599627370495.5%float in
  let h := <[key_to_typestring (KStr "k") := value_to_typestring (VFloat x)]>
             (∅ : gmap string string) in
  let h' := snd ((RedisCache.increment (KStr "k") (NInt 2) ;;;
                  RedisCache.increment (KStr "k") (NInt (-5))) h) in
  fst (RedisCache.get (KStr "k") None h') = Ok (Some (VFloat 4503599627370493%float)) /\
  PrimFloat.eqb 4503599627370493%float (PrimFloat.sub x 3) = false /\
  PrimFloat.eqb (PrimFloat.sub 4503599627370493%float x) (-3) = false.
Proof. vm_compute. split; [reflexivity|split; reflexivity]. Qed.

Lemma int_to_float_cases z :
  (exists g, int_to_float z = Ok g) \/ int_to_float z = Err OverflowError.
Proof.
  unfold int_to_float. destruct (binary_normalize prec emax z 0 false); eauto.
Qed.

(** C10 (as amended): [increment(key, amount)] with a [float] amount on a
    stored [int] stores the [float] [float(value) + amount], which [get]
    then returns, unless [float(value)] overflows, in which case it raises
    OverflowError and leaves the stored [int] in place. *)
Theorem increment_int_by_float (h : gmap string string) k z f :
  h !! key_to_typestring k = Some (value_to_typestring (VInt z)) ->
  (exists g, int_to_float z = Ok g /\
     RedisCache.increment k (NFloat f) h =
       (Ok tt, <[key_to_typestring k := value_to_typestring (VFloat (PrimFloat.add g f))]> h) /\
     fst (RedisCache.get k None
            (<[key_to_typestring k := value_to_typestring (VFloat (PrimFloat.add g f))]> h)) =
       Ok (Some (VFloat (PrimFloat.add g f)))) \/
  (int_to_float z = Err OverflowError /\
     RedisCache.increment k (NFloat f) h = (Err OverflowError, h)).
Proof.
  intros E. rewrite (increment_run_stored _ _ _ _ E). simpl.
  destruct (int_to_float_cases z) as [[g Hg]|Hg]; rewrite Hg.
  - left. exists g. split; [done|]. split; [done|].
    by rewrite (get_run_stored _ _ _ (VFloat (PrimFloat.add g f)))
      by (by rewrite lookup_insert_eq).
  - by right.
Qed.

Lemma increment_int_by_float_witness :
  let h := <["STRING:n" := "INT:3"]> (∅ : gmap string string) in
  h !! key_to_typestring (KStr "n") = Some (value_to_typestring (VInt 3)) /\
  RedisCache.increment (KStr "n") (NFloat 0.5) h =
    (Ok tt, <[key_to_typestring (KStr "n") := value_to_typestring (VFloat 3.5)]> h).
Proof.
  intros h. split; [reflexivity|].
  destruct (increment_int_by_float h (KStr "n") 3 0.5) as [[g [Hg [Hi _]]]|[Hg _]];
    [reflexivity| |vm_compute in Hg; discriminate].
  rewrite Hi. vm_compute in Hg. injection Hg as <-. vm_compute. reflexivity.
Defined.

(** C10 fails for an [int] too large for a [float]: [2 ** 1100 + 0.5]
    raises OverflowError and the stored value stays an [int]. *)
Lemma increment_huge_int_by_float_overflows :
  let h := <[key_to_typestring (KStr "n") := value_to_typestring (VInt (2 ^ 1100))]>
             (∅ : gmap string string) in
  RedisCache.increment (KStr "n") (NFloat 0.5) h = (Err OverflowError, h) /\
  fst (RedisCache.get (KStr "n") None h) = Ok (Some (VInt (2 ^ 1100))).
Proof. vm_compute. split; reflexivity. Qed.

(** ** [update] against one [set] per pair *)

Lemma set_each_run (h : gmap string string) m :
  set_each m h =
  (Ok tt, foldl (fun acc '(f, w) => <[f := w]> acc) h (dict_to_typestring m)).
Proof.
  revert h. induction m as [|[k v] m IH]; intros h; [done|].
  simpl. unfold bind at 1. rewrite set_run. apply IH.
Qed.

Lemma update_run (h : gmap string string) m :
  m <> [] -> RedisCache.update m h = set_each m h.
Proof.
  intros Hm. rewrite set_each_run. unfold RedisCache.update, hmset_dict.
  destruct m; [done|]. reflexivity.
Qed.

Lemma set_each_lookup m :
  NoDup (map fst m) -> forall (h : gmap string string) k v,
  snd (set_each m h) !! key_to_typestring k = Some (value_to_typestring v) <->
  ((k, v) ∈ m \/ ((k ∉ map fst m) /\ h !! key_to_typestring k = Some (value_to_typestring v))).
Proof.
  induction m as [|[k0 v0] m IH]; intros Hnd h k v.
  - simpl. rewrite elem_of_nil. split.
    + intros H. right. split; [apply not_elem_of_nil|done].
    + by intros [[]|[_ H]].
  - simpl in Hnd. apply NoDup_cons in Hnd as [Hk0 Hnd].
    change (snd (set_each ((k0, v0) :: m) h))
      with (snd (set_each m (<[key_to_typestring k0 := value_to_typestring v0]> h))).
    rewrite IH by done. simpl. rewrite !elem_of_cons.
    destruct (decide (k = k0)) as [->|Hne].
    + rewrite lookup_insert_eq.
      assert ((k0, v) ∈ m -> False) as Hnot.
      { intros Hin. apply Hk0, list_elem_of_In, in_map_iff.
        exists (k0, v). split; [done|by apply list_elem_of_In]. }
      split.
      * intros [Hin|[_ Hv]]; [by exfalso|].
        injection Hv as Hv. apply value_to_typestring_inj in Hv. subst. by left; left.
      * intros [[E|Hin]|[Hn _]].
        -- injection E as ->. right. by split.
        -- by exfalso.
        -- exfalso. apply Hn. by left.
    + rewrite lookup_insert_ne by (intros E; apply Hne; by apply key_to_typestring_inj).
      split.
      * intros [Hin|[Hn Hv]]; [by left; right|right; split; [|done]].
        intros [E|Hin]; [done|by apply Hn].
      * intros [[E|Hin]|[Hn Hv]]; [by injection E|by left|right; split; [|done]].
        intros Hin. apply Hn. by right.
Qed.

Lemma set_each_lookup_encoded m (h : gmap string string) f w :
  snd (set_each m h) !! f = Some w ->
  h !! f = Some w \/ exists k v, f = key_to_typestring k /\ w = value_to_typestring v.
Proof.
  revert h. induction m as [|[k0 v0] m IH]; intros h Hf; [by left|].
  change (snd (set_each ((k0, v0) :: m) h))
    with (snd (set_each m (<[key_to_typestring k0 := value_to_typestring v0]> h))) in Hf.
  destruct (IH _ Hf) as [Hh|Henc]; [|by right].
  destruct (decide (f = key_to_typestring k0)) as [->|Hne].
  - rewrite lookup_insert_eq in Hh. injection Hh as <-. right. eauto.
  - rewrite lookup_insert_ne in Hh by congruence. by left.
Qed.

Lemma dict_from_encoded (d : list (string * string)) :
  Forall (fun '(f, w) => exists k v, f = key_to_typestring k /\ w = value_to_typestring v) d ->
  exists l, dict_from_typestring d = Ok l /\
    forall k v, (k, v) ∈ l <-> (key_to_typestring k, value_to_typestring v) ∈ d.
Proof.
  induction d as [|[f w] d IH]; intros Hall.
  - exists []. split; [done|]. intros k v. rewrite !elem_of_nil. done.
  - apply Forall_cons in Hall as [[k0 [v0 [-> ->]]] Hall].
    destruct (IH Hall) as [l [Hl Hin]].
    exists ((k0, v0) :: l). split.
    + simpl. by rewrite key_roundtrip, value_roundtrip, Hl.
    + intros k v. rewrite !elem_of_cons, Hin. split.
      * intros [[=-> ->]|H]; auto.
      * intros [[=Hk Hv]|H]; [|auto]. left.
        apply key_to_typestring_inj in Hk. apply value_to_typestring_inj in Hv. by subst.
Qed.

Lemma items_run (h : gmap string string) :
  RedisCache.items h =
  (match dict_from_typestring (map_to_list h) with Ok l => Ok l | Err e => Err e end, h).
Proof.
  unfold RedisCache.items, bind, hgetall, lift.
  by destruct (dict_from_typestring (map_to_list h)).
Qed.

(** C8: [update(mapping)] leaves the hash exactly as one [set] per pair
    does; [items()] reads the hash without changing it, so what the caller
    does with the returned copy cannot reach later [get] calls; and on a
    fresh namespace, after either way of writing a Python dict (distinct
    keys), [items()] returns exactly the dict's pairs. *)
Theorem update_as_sets :
  (forall (h : gmap string string) m, snd (RedisCache.update m h) = snd (set_each m h)) /\
  (forall (h : gmap string string), snd (RedisCache.items h) = h) /\
  (forall m, NoDup (map fst m) ->
     exists l, fst (RedisCache.items (snd (RedisCache.update m ∅))) = Ok l /\
               fst (RedisCache.items (snd (set_each m ∅))) = Ok l /\
               forall k v, (k, v) ∈ l <-> (k, v) ∈ m).
Proof.
  assert (Hupd : forall (h : gmap string string) m,
            snd (RedisCache.update m h) = snd (set_each m h)).
  { intros h [|p m]; [reflexivity|]. by rewrite update_run. }
  split; [exact Hupd|split].
  - intros h. by rewrite items_run.
  - intros m Hnd. rewrite Hupd.
    set (h' := snd (set_each m ∅)).
    destruct (dict_from_encoded (map_to_list h')) as [l [Hl Hin]].
    { apply Forall_forall. intros [f w] Hfw. apply elem_of_map_to_list in Hfw.
      destruct (set_each_lookup_encoded m ∅ f w Hfw) as [H0|Henc]; [done|exact Henc]. }
    exists l. rewrite items_run, Hl. split; [done|split; [done|]].
    intros k v. rewrite Hin, elem_of_map_to_list. subst h'.
    rewrite (set_each_lookup m Hnd ∅ k v), lookup_empty. split.
    + by intros [Hm|[_ H0]].
    + by left.
Qed.

Lemma update_as_sets_witness :
  let m := [(KStr "a", VInt 1); (KInt 1, VStr "1"); (KStr "b", VBool true)] in
  NoDup (map fst m) /\
  exists l, fst (RedisCache.items (snd (RedisCache.update m ∅))) = Ok l /\
            fst (RedisCache.items (snd (set_each m ∅))) = Ok l /\
            forall k v, (k, v) ∈ l <-> (k, v) ∈ m.
Proof.
  intros m. assert (Hnd : NoDup (map fst m)) by (apply (bool_decide_unpack (NoDup (map fst m))); vm_compute; exact I).
  split; [exact Hnd|]. exact (proj2 (proj2 update_as_sets) m Hnd).
Defined.

(** ** Two concurrent increments *)

Module ConcurrentFacts.
Import Concurrent.

Section Facts.
Variable key : RedisKey.
Variable amount : Num.

Lemma task_step_local t st h l p h' l' p' :
  task_step key amount t h l p h' l' p' ->
  local_ok key amount st p h -> local_ok key amount st p' h'.
Proof.
  intros Ht Hok. destruct Ht as [h|h h' v Hg|h h' e Hg|h h' v r Hr|h r]; simpl in *.
  - exact Hok.
  - by subst.
  - subst. by rewrite increment_run, Hg.
  - by rewrite increment_run, Hok.
  - exact Hok.
Qed.

Lemma inv_init h0 : inv key amount h0 (init h0).
Proof. split; [left; simpl; tauto|left; split; reflexivity]. Qed.

Lemma inv_step h0 s s' :
  step key amount s s' -> inv key amount h0 s -> inv key amount h0 s'.
Proof.
  intros Hs [Hlock Hprog].
  destruct Hs as [h l p1 p2 h' l' p1' Ht|h l p1 p2 h' l' p2' Ht]; simpl in *;
    pose proof (fun st => task_step_local _ st _ _ _ _ _ _ Ht) as Hloc;
    destruct Ht as [h|h h' v Hg|h h' e Hg|h h' v r Hr|h r];
    destruct Hlock as [[Hc [Ha Hb]]|[[Hc [Ha Hb]]|[Hc [Ha Hb]]]];
    try discriminate Hc; simpl in Ha; try tauto;
    (split; [simpl; intuition congruence|]); simpl;
    destruct Hprog as [[Hp Hok]|[[Hp Hok]|[[r1 [h1 [Hp [Hi Hok]]]]|[r2 [h1 [Hp [Hi Hok]]]]]]];
    try discriminate Hp.
  (* the first task steps *)
  all: try (left; split; [done|by apply Hloc]).
  all: try (right; right; right; exists r2, h1; split; [done|split; [done|by apply Hloc]]).
  (* the second task steps *)
  all: try (right; left; split; [done|by apply Hloc]).
  all: try (right; right; left; exists r1, h1; split; [done|split; [done|by apply Hloc]]).
  (* a task takes the lock while the other one is waiting or finished *)
  - destruct p2 as [| | | |r2]; simpl in Hb; try tauto.
    + right; right; right. exists r2, h. split; [done|split; [exact Hok|done]].
  - destruct p1 as [| | | |r1]; simpl in Ha; try tauto.
    + right; right; left. exists r1, h. split; [done|split; [exact Hok|done]].
Qed.

Lemma inv_runs h0 s : runs key amount (init h0) s -> inv key amount h0 s.
Proof.
  intros Hr. assert (H0 := inv_init h0). revert H0.
  induction Hr as [x|x y z Hxy Hyz IH]; [done|].
  intros Hx. apply IH. by apply (inv_step h0 x y).
Qed.


(** The schedule that runs the first task to completion, then the second. *)
Lemma task1_run h p2 r h' :
  RedisCache.increment key amount h = (r, h') ->
  rtc (step key amount) (mkState h None Waiting p2) (mkState h' None (Finished r) p2).
Proof.
  rewrite increment_run. intros Hi.
  eapply rtc_l; [apply step_T1, ts_acquire|].
  destruct (RedisCache.get key None h) as [[v|e] hg] eqn:Hg.
  - eapply rtc_l; [apply step_T1, ts_get, Hg|].
    eapply rtc_l; [apply step_T1, ts_rest, Hi|].
    eapply rtc_l; [apply step_T1, ts_release|]. apply rtc_refl.
  - injection Hi as <- <-.
    eapply rtc_l; [apply step_T1, ts_get_raise, Hg|].
    eapply rtc_l; [apply step_T1, ts_release|]. apply rtc_refl.
Qed.

Lemma task2_run h p1 r h' :
  RedisCache.increment key amount h = (r, h') ->
  rtc (step key amount) (mkState h None p1 Waiting) (mkState h' None p1 (Finished r)).
Proof.
  rewrite increment_run. intros Hi.
  eapply rtc_l; [apply step_T2, ts_acquire|].
  destruct (RedisCache.get key None h) as [[v|e] hg] eqn:Hg.
  - eapply rtc_l; [apply step_T2, ts_get, Hg|].
    eapply rtc_l; [apply step_T2, ts_rest, Hi|].
    eapply rtc_l; [apply step_T2, ts_release|]. apply rtc_refl.
  - injection Hi as <- <-.
    eapply rtc_l; [apply step_T2, ts_get_raise, Hg|].
    eapply rtc_l; [apply step_T2, ts_release|]. apply rtc_refl.
Qed.

Lemma sequential_run h0 r1 h1 r2 h2 :
  RedisCache.increment key amount h0 = (r1, h1) ->
  RedisCache.increment key amount h1 = (r2, h2) ->
  runs key amount (init h0) (mkState h2 None (Finished r1) (Finished r2)).
Proof.
  intros H1 H2. unfold runs, init.
  eapply rtc_trans; [by apply task1_run|by apply task2_run].
Qed.

End Facts.
End ConcurrentFacts.

(** C9 (as amended): whatever the interleaving of two concurrent
    [increment(key, 1)] calls on one cache instance, the hash ends as two
    back-to-back calls leave it (no update is lost); for a stored [int] [z]
    both calls succeed and the stored value is exactly [z + 2]. *)
Theorem concurrent_increments key (h0 : gmap string string) s r1 r2 :
  Concurrent.runs key (NInt 1) (Concurrent.init h0) s ->
  Concurrent.task1 s = Concurrent.Finished r1 ->
  Concurrent.task2 s = Concurrent.Finished r2 ->
  Concurrent.store s =
    snd (RedisCache.increment key (NInt 1) (snd (RedisCache.increment key (NInt 1) h0))) /\
  (forall z, h0 !! key_to_typestring key = Some (value_to_typestring (VInt z)) ->
     Concurrent.store s = <[key_to_typestring key := value_to_typestring (VInt (z + 2))]> h0 /\
     r1 = Ok tt /\ r2 = Ok tt).
Proof.
  intros Hr H1 H2. destruct (ConcurrentFacts.inv_runs _ _ _ _ Hr) as [_ Hprog].
  rewrite H1, H2 in Hprog. simpl in Hprog.
  destruct Hprog as [[Hp _]|[[Hp _]|[[ra [h1 [Hp [Hi Hok]]]]|[ra [h1 [Hp [Hi Hok]]]]]]];
    try discriminate Hp; injection Hp as <-.
  all: split; [by rewrite Hi; simpl; rewrite Hok|].
  all: intros z Hz; rewrite (increment_run_stored _ _ _ (VInt z) Hz) in Hi; simpl in Hi;
    injection Hi as <- <-;
    rewrite (increment_run_stored _ _ _ (VInt (z + 1))) in Hok by (by rewrite lookup_insert_eq);
    simpl in Hok; injection Hok as <- <-.
  all: split; [rewrite insert_insert_eq; by replace (z + 1 + 1) with (z + 2) by lia|done].
Qed.

Lemma concurrent_increments_witness :
  let h0 := <[key_to_typestring (KStr "c") := value_to_typestring (VInt 5)]>
              (∅ : gmap string string) in
  let s := Concurrent.mkState
             (<[key_to_typestring (KStr "c") := value_to_typestring (VInt 7)]> h0) None
             (Concurrent.Finished (Ok tt)) (Concurrent.Finished (Ok tt)) in
  Concurrent.runs (KStr "c") (NInt 1) (Concurrent.init h0) s /\
  Concurrent.store s =
    <[key_to_typestring (KStr "c") := value_to_typestring (VInt (5 + 2))]> h0.
Proof.
  intros h0 s.
  assert (Hr : Concurrent.runs (KStr "c") (NInt 1) (Concurrent.init h0) s).
  { apply (ConcurrentFacts.sequential_run _ _ h0 (Ok tt)
             (<[key_to_typestring (KStr "c") := value_to_typestring (VInt 6)]> h0));
      vm_compute; reflexivity. }
  split; [exact Hr|].
  apply (proj2 (concurrent_increments (KStr "c") h0 s (Ok tt) (Ok tt) Hr eq_refl eq_refl) 5).
  reflexivity.
Defined.

(** C9 fails for a stored [float]: from [2.0 ** 53], [x + 1] rounds back to
    [x], so after two concurrent [increment(key, 1)] calls the value is
    still [2.0 ** 53], not [2.0 ** 53 + 2]. *)
Lemma concurrent_float_increments_not_plus_2 :
  let x := 9007199254740992%float in
  let h0 := <[key_to_typestring (KStr "c") := value_to_typestring (VFloat x)]>
              (∅ : gmap string string) in
  ~ (forall s, Concurrent.runs (KStr "c") (NInt 1) (Concurrent.init h0) s ->
       Concurrent.task1 s = Concurrent.Finished (Ok tt) ->
       Concurrent.task2 s = Concurrent.Finished (Ok tt) ->
       fst (RedisCache.get (KStr "c") None (Concurrent.store s)) =
         Ok (Some (VFloat (PrimFloat.add x 2)))).
Proof.
  intros x h0 Hclaim.
  assert (Hr : Concurrent.runs (KStr "c") (NInt 1) (Concurrent.init h0)
                 (Concurrent.mkState h0 None (Concurrent.Finished (Ok tt))
                    (Concurrent.Finished (Ok tt)))).
  { apply (ConcurrentFacts.sequential_run _ _ h0 (Ok tt) h0); vm_compute; reflexivity. }
  specialize (Hclaim _ Hr eq_refl eq_refl).
  apply (f_equal (fun r => match r with Ok (Some (VFloat f)) => Prim2SF f | _ => S754_nan end))
    in Hclaim.
  vm_compute in Hclaim. discriminate Hclaim.
Qed.

(** ** Further properties of [RedisCache] *)

Section Helpers.
Implicit Types (h : gmap string string) (k : RedisKey) (v : RedisValue).

Lemma entry_ok_spec f w :
  entry_ok f w = true <-> exists k v, f = key_to_typestring k /\ w = value_to_typestring v.
Proof.
  unfold entry_ok. split.
  - destruct (key_from_typestring f) as [k|]; [|done].
    destruct (value_from_typestring w) as [v|]; [|done].
    intros [Hk Hv]%andb_true_iff. apply String.eqb_eq in Hk, Hv. eauto.
  - intros (k & v & -> & ->). rewrite key_roundtrip, value_roundtrip.
    by rewrite !String.eqb_refl.
Qed.

Lemma cache_written_lookup h f w :
  cache_written h -> h !! f = Some w ->
  exists k v, f = key_to_typestring k /\ w = value_to_typestring v.
Proof. intros Hh Hf. apply entry_ok_spec. exact (Hh f w Hf). Qed.

Lemma cache_written_insert h k v :
  cache_written h -> cache_written (<[key_to_typestring k := value_to_typestring v]> h).
Proof. intros Hh. apply map_Forall_insert_2; [|done]. apply entry_ok_spec. eauto. Qed.

Lemma cache_written_delete h f : cache_written h -> cache_written (delete f h).
Proof. apply map_Forall_delete. Qed.

Lemma get_keeps h k d : snd (RedisCache.get k d h) = h.
Proof.
  destruct (h !! key_to_typestring k) as [w|] eqn:E.
  - rewrite (get_run_present _ _ _ _ E). done.
  - by rewrite (get_run_absent _ _ _ E).
Qed.

Lemma get_found h k v :
  fst (RedisCache.get k None h) = Ok (Some v) ->
  exists w, h !! key_to_typestring k = Some w /\ value_from_typestring w = Ok v.
Proof.
  intros Hg. destruct (h !! key_to_typestring k) as [w|] eqn:E.
  - rewrite (get_run_present _ _ _ _ E) in Hg. exists w. split; [done|].
    destruct (value_from_typestring w); simpl in Hg; congruence.
  - by rewrite (get_run_absent _ _ _ E) in Hg.
Qed.

Lemma get_written h k v :
  cache_written h ->
  RedisCache.get k None h = (Ok (Some v), h) <->
  h !! key_to_typestring k = Some (value_to_typestring v).
Proof.
  intros Hh. split; [|apply get_run_stored].
  destruct (h !! key_to_typestring k) as [w|] eqn:E.
  - rewrite (get_run_present _ _ _ _ E).
    destruct (cache_written_lookup h _ _ Hh E) as (k' & v' & _ & ->).
    rewrite value_roundtrip. intros [= Hv]. by subst.
  - by rewrite (get_run_absent _ _ _ E).
Qed.

Lemma get_lookup_congr h1 h2 k d :
  h1 !! key_to_typestring k = h2 !! key_to_typestring k ->
  fst (RedisCache.get k d h1) = fst (RedisCache.get k d h2).
Proof.
  intros E. destruct (h2 !! key_to_typestring k) as [w|] eqn:E2.
  - by rewrite (get_run_present _ _ _ _ E), (get_run_present _ _ _ _ E2).
  - by rewrite (get_run_absent _ _ _ E), (get_run_absent _ _ _ E2).
Qed.

Lemma contains_run h k :
  RedisCache.contains k h = (Ok (bool_decide (is_Some (h !! key_to_typestring k))), h).
Proof. reflexivity. Qed.

Lemma delete_run h k :
  RedisCache.delete k h =
  (Ok (match h !! key_to_typestring k with Some _ => 1 | None => 0 end),
   delete (key_to_typestring k) h).
Proof. reflexivity. Qed.

Lemma length_run h : RedisCache.length h = (Ok (Z.of_nat (size h)), h).
Proof. reflexivity. Qed.

Lemma pop_run h k d :
  RedisCache.pop k d h =
  match fst (RedisCache.get k d h) with
  | Ok value => (Ok value, delete (key_to_typestring k) h)
  | Err e => (Err e, h)
  end.
Proof.
  destruct (h !! key_to_typestring k) as [w|] eqn:E.
  - unfold RedisCache.pop. unfold bind at 1. rewrite (get_run_present _ _ _ _ E).
    by destruct (value_from_typestring w).
  - unfold RedisCache.pop. unfold bind at 1. rewrite (get_run_absent _ _ _ E). reflexivity.
Qed.

Lemma increment_outcome h k a :
  (exists e, RedisCache.increment k a h = (Err e, h)) \/
  (exists r, RedisCache.increment k a h =
             (Ok tt, <[key_to_typestring k := value_to_typestring r]> h)).
Proof.
  rewrite increment_run. destruct (h !! key_to_typestring k) as [w|] eqn:E.
  - rewrite (get_run_present _ _ _ _ E).
    destruct (value_from_typestring w) as [v|e]; [|by left; exists e].
    unfold RedisCache.increment_rest.
    destruct (isinstance_int v || isinstance_float v); [|by left; eexists].
    unfold bind, lift. destruct (py_add v a) as [r|e]; [right; by exists r|left; by exists e].
  - rewrite (get_run_absent _ _ _ E). left. by eexists.
Qed.

Lemma update_outcome h m :
  (m = [] /\ RedisCache.update m h = (Err ValueError, h)) \/
  (m <> [] /\ RedisCache.update m h = (Ok tt, snd (set_each m h))).
Proof.
  destruct m as [|p m]; [by left|right]. split; [done|].
  rewrite update_run by done. by rewrite set_each_run.
Qed.

Lemma cache_written_set_each h m : cache_written h -> cache_written (snd (set_each m h)).
Proof.
  intros Hh f w Hf. apply entry_ok_spec.
  destruct (set_each_lookup_encoded m h f w Hf) as [H0|Henc]; [|exact Henc].
  by apply (cache_written_lookup h).
Qed.

Lemma set_each_lookup_other m h k :
  k ∉ map fst m -> snd (set_each m h) !! key_to_typestring k = h !! key_to_typestring k.
Proof.
  revert h. induction m as [|[k0 v0] m IH]; intros h Hk; [done|].
  change (snd (set_each ((k0, v0) :: m) h))
    with (snd (set_each m (<[key_to_typestring k0 := value_to_typestring v0]> h))).
  simpl in Hk. apply not_elem_of_cons in Hk as [Hk0 Hk].
  rewrite IH by done. apply lookup_insert_ne.
  intros E. apply key_to_typestring_inj in E. by subst.
Qed.

Lemma dict_from_encoded_eq (d : list (string * string)) :
  Forall (fun '(f, w) => exists k v, f = key_to_typestring k /\ w = value_to_typestring v) d ->
  exists l, dict_from_typestring d = Ok l /\ d = dict_to_typestring l.
Proof.
  induction d as [|[f w] d IH]; intros Hall; [by exists []|].
  apply Forall_cons in Hall as [[k0 [v0 [-> ->]]] Hall].
  destruct (IH Hall) as [l [Hl ->]].
  exists ((k0, v0) :: l). simpl. by rewrite key_roundtrip, value_roundtrip, Hl.
Qed.

Lemma items_written h :
  cache_written h ->
  exists l, RedisCache.items h = (Ok l, h) /\ map_to_list h = dict_to_typestring l.
Proof.
  intros Hh. destruct (dict_from_encoded_eq (map_to_list h)) as [l [Hl Hd]].
  { apply Forall_forall. intros [f w] Hfw. apply elem_of_map_to_list in Hfw.
    by apply (cache_written_lookup h). }
  exists l. by rewrite items_run, Hl.
Qed.

Lemma dict_to_typestring_fst l :
  (dict_to_typestring l).*1 = map key_to_typestring (map fst l).
Proof.
  unfold dict_to_typestring. induction l as [|[k v] l IH]; [done|].
  simpl. f_equal. exact IH.
Qed.

Lemma elem_of_dict_to_typestring l k v :
  (key_to_typestring k, value_to_typestring v) ∈ dict_to_typestring l <-> (k, v) ∈ l.
Proof.
  induction l as [|[k0 v0] l IH]; simpl.
  - by rewrite !elem_of_nil.
  - rewrite !elem_of_cons, IH. split.
    + intros [[= Hk Hv]|H]; [|auto]. left.
      apply key_to_typestring_inj in Hk. apply value_to_typestring_inj in Hv. by subst.
    + intros [[= -> ->]|H]; auto.
Qed.

Lemma NoDup_map_inv' {A B} (g : A -> B) (l : list A) : NoDup (map g l) -> NoDup l.
Proof.
  induction l as [|x l IH]; simpl; intros Hnd; [constructor|].
  apply NoDup_cons in Hnd as [Hx Hnd]. constructor; [|by apply IH].
  intros Hin. apply Hx, list_elem_of_In, in_map, list_elem_of_In, Hin.
Qed.

End Helpers.

(** X1: every writing method keeps the hash a cache-written one (each field
    the typestring of a key, each value the typestring of a value), whether
    it succeeds or raises. *)
Theorem cache_written_preserved (h : gmap string string) :
  cache_written h ->
  (forall k v, cache_written (snd (RedisCache.set k v h))) /\
  (forall k, cache_written (snd (RedisCache.delete k h))) /\
  (forall k d, cache_written (snd (RedisCache.pop k d h))) /\
  (forall m, cache_written (snd (RedisCache.update m h))) /\
  (forall k a, cache_written (snd (RedisCache.increment k a h))) /\
  (forall k a, cache_written (snd (RedisCache.decrement k a h))) /\
  cache_written (snd (RedisCache.clear h)).
Proof.
  intros Hh.
  assert (Hinc : forall k a, cache_written (snd (RedisCache.increment k a h))).
  { intros k a. destruct (increment_outcome h k a) as [[e ->]|[r ->]]; [done|].
    by apply cache_written_insert. }
  split; [|split; [|split; [|split; [|split; [|split]]]]].
  - intros k v. rewrite set_run. by apply cache_written_insert.
  - intros k. rewrite delete_run. by apply cache_written_delete.
  - intros k d. rewrite pop_run.
    destruct (fst (RedisCache.get k d h)); [by apply cache_written_delete|done].
  - intros m. destruct (update_outcome h m) as [[_ ->]|[_ ->]]; [done|].
    by apply cache_written_set_each.
  - exact Hinc.
  - intros k a. apply Hinc.
  - apply map_Forall_empty.
Qed.

Lemma cache_written_preserved_witness :
  let h := <["STRING:a" := "INT:1"]> (<["INT:2" := "STRING:x"]> (∅ : gmap string string)) in
  cache_written h /\ cache_written (snd (RedisCache.increment (KStr "a") (NInt 1) h)) /\
  cache_written (snd (RedisCache.pop (KInt 2) None h)).
Proof.
  intros h. assert (Hh : cache_written h)
    by (apply (bool_decide_unpack (cache_written h)); vm_compute; exact I).
  destruct (cache_written_preserved h Hh) as (_ & _ & Hpop & _ & Hinc & _).
  split; [exact Hh|split; [apply Hinc|apply Hpop]].
Defined.

(** X2: on a cache-written hash, [items()] and [to_dict()] never raise and
    leave the hash as it is; the keys they return are pairwise distinct, so
    the dict [to_dict] builds loses no pair, and there are exactly as many
    as [length()] reports. *)
Theorem items_of_written_cache (h : gmap string string) :
  cache_written h ->
  exists l, RedisCache.items h = (Ok l, h) /\ RedisCache.to_dict h = (Ok l, h) /\
    NoDup (map fst l) /\ RedisCache.length h = (Ok (Z.of_nat (List.length l)), h).
Proof.
  intros Hh. destruct (items_written h Hh) as [l [Hi Hd]].
  exists l. split; [done|]. split; [done|]. split.
  - apply (NoDup_map_inv' key_to_typestring). rewrite <- dict_to_typestring_fst, <- Hd.
    apply NoDup_fst_map_to_list.
  - rewrite length_run, <- length_map_to_list, Hd. unfold dict_to_typestring.
    by rewrite length_map.
Qed.

Lemma items_of_written_cache_witness :
  let h := <["STRING:a" := "INT:1"]> (<["INT:2" := "STRING:x"]> (∅ : gmap string string)) in
  cache_written h /\
  exists l, RedisCache.items h = (Ok l, h) /\ RedisCache.to_dict h = (Ok l, h) /\
    NoDup (map fst l) /\ RedisCache.length h = (Ok (Z.of_nat (List.length l)), h).
Proof.
  intros h. assert (Hh : cache_written h)
    by (apply (bool_decide_unpack (cache_written h)); vm_compute; exact I).
  split; [exact Hh|]. exact (items_of_written_cache h Hh).
Defined.

(** X3: on a cache-written hash, a pair [(key, value)] is among the
    [items()] exactly when [get(key)] returns [value]. *)
Theorem items_agree_with_get (h : gmap string string) l :
  cache_written h -> fst (RedisCache.items h) = Ok l ->
  forall k v, (k, v) ∈ l <-> RedisCache.get k None h = (Ok (Some v), h).
Proof.
  intros Hh Hl k v. destruct (items_written h Hh) as [l' [Hi Hd]].
  rewrite Hi in Hl. injection Hl as <-.
  rewrite (get_written h k v Hh), <- elem_of_map_to_list, Hd.
  symmetry. apply elem_of_dict_to_typestring.
Qed.

Lemma items_agree_with_get_witness :
  let h := <["STRING:a" := "INT:1"]> (<["INT:2" := "STRING:x"]> (∅ : gmap string string)) in
  cache_written h /\
  exists l, fst (RedisCache.items h) = Ok l /\
    ((KInt 2, VStr "x") ∈ l <-> RedisCache.get (KInt 2) None h = (Ok (Some (VStr "x")), h)).
Proof.
  intros h. assert (Hh : cache_written h)
    by (apply (bool_decide_unpack (cache_written h)); vm_compute; exact I).
  split; [exact Hh|].
  eexists. assert (Hl : fst (RedisCache.items h) = Ok [(KStr "a", VInt 1); (KInt 2, VStr "x")])
    by (vm_compute; reflexivity).
  split; [exact Hl|]. exact (items_agree_with_get h _ Hh Hl (KInt 2) (VStr "x")).
Defined.

(** X4: on a cache-written hash, [get(key)] never raises, and
    [contains(key)] is [True] exactly when [get(key)] finds a value and
    [False] exactly when it returns [None]; neither writes. *)
Theorem contains_agrees_with_get (h : gmap string string) k :
  cache_written h ->
  (RedisCache.contains k h = (Ok true, h) /\
     exists v, RedisCache.get k None h = (Ok (Some v), h)) \/
  (RedisCache.contains k h = (Ok false, h) /\ RedisCache.get k None h = (Ok None, h)).
Proof.
  intros Hh. rewrite contains_run.
  destruct (h !! key_to_typestring k) as [w|] eqn:E.
  - left. rewrite bool_decide_eq_true_2 by eauto. split; [done|].
    destruct (cache_written_lookup h _ _ Hh E) as (k' & v & _ & ->).
    exists v. by apply get_run_stored.
  - right. rewrite bool_decide_eq_false_2 by (intros [? ?]; discriminate).
    split; [done|]. by apply get_run_absent.
Qed.

Lemma contains_agrees_with_get_witness :
  let h := <["STRING:a" := "INT:1"]> (<["INT:2" := "STRING:x"]> (∅ : gmap string string)) in
  cache_written h /\
  ((RedisCache.contains (KStr "b") h = (Ok true, h) /\
      exists v, RedisCache.get (KStr "b") None h = (Ok (Some v), h)) \/
   (RedisCache.contains (KStr "b") h = (Ok false, h) /\
      RedisCache.get (KStr "b") None h = (Ok None, h))).
Proof.
  intros h. assert (Hh : cache_written h)
    by (apply (bool_decide_unpack (cache_written h)); vm_compute; exact I).
  split; [exact Hh|]. exact (contains_agrees_with_get h (KStr "b") Hh).
Defined.

(** X5: [delete(key)] returns 1 when [contains(key)] was true and 0
    otherwise; afterwards [contains(key)] is false, [get(key, default)]
    returns [default], and [length()] has dropped by the returned count. *)
Theorem delete_effect (h : gmap string string) k b len d :
  fst (RedisCache.contains k h) = Ok b -> fst (RedisCache.length h) = Ok len ->
  let h' := snd (RedisCache.delete k h) in
  fst (RedisCache.delete k h) = Ok (if b then 1 else 0) /\
  fst (RedisCache.contains k h') = Ok false /\
  RedisCache.get k d h' = (Ok d, h') /\
  fst (RedisCache.length h') = Ok (if b then len - 1 else len).
Proof.
  intros Hb Hlen. rewrite contains_run in Hb. rewrite length_run in Hlen.
  cbn [fst] in Hb, Hlen. injection Hb as <-. injection Hlen as <-.
  cbv zeta. rewrite delete_run. cbn [fst snd]. rewrite !contains_run, !length_run. cbn [fst].
  split; [|split; [|split]].
  - destruct (h !! key_to_typestring k) eqn:E.
    + by rewrite bool_decide_eq_true_2 by eauto.
    + by rewrite bool_decide_eq_false_2 by (intros [? ?]; discriminate).
  - rewrite lookup_delete_eq, bool_decide_eq_false_2; [done|]. intros [? ?]; discriminate.
  - apply get_run_absent, lookup_delete_eq.
  - destruct (h !! key_to_typestring k) as [w|] eqn:E.
    + rewrite bool_decide_eq_true_2 by eauto.
      rewrite <- (insert_delete_id h (key_to_typestring k) w E) at 2.
      rewrite map_size_insert_None by apply lookup_delete_eq. f_equal. lia.
    + rewrite bool_decide_eq_false_2 by (intros [? ?]; discriminate).
      by rewrite map_size_delete_None.
Qed.

Lemma delete_effect_witness :
  let h := <["STRING:a" := "INT:1"]> (<["INT:2" := "STRING:x"]> (∅ : gmap string string)) in
  fst (RedisCache.contains (KStr "a") h) = Ok true /\ fst (RedisCache.length h) = Ok 2 /\
  (let h' := snd (RedisCache.delete (KStr "a") h) in
   fst (RedisCache.delete (KStr "a") h) = Ok 1 /\
   fst (RedisCache.contains (KStr "a") h') = Ok false /\
   RedisCache.get (KStr "a") (Some (VInt 0)) h' = (Ok (Some (VInt 0)), h') /\
   fst (RedisCache.length h') = Ok (2 - 1)).
Proof.
  intros h. split; [vm_compute; reflexivity|]. split; [vm_compute; reflexivity|].
  apply (delete_effect h (KStr "a") true 2 (Some (VInt 0))); vm_compute; reflexivity.
Defined.

(** X6: after [set(key, value)], which never raises, [contains(key)] is
    true and [length()] has grown by one exactly when the key was absent. *)
Theorem set_effect (h : gmap string string) k v b len :
  fst (RedisCache.contains k h) = Ok b -> fst (RedisCache.length h) = Ok len ->
  let h' := snd (RedisCache.set k v h) in
  fst (RedisCache.set k v h) = Ok tt /\
  fst (RedisCache.contains k h') = Ok true /\
  fst (RedisCache.length h') = Ok (if b then len else len + 1).
Proof.
  intros Hb Hlen. rewrite contains_run in Hb. rewrite length_run in Hlen.
  cbn [fst] in Hb, Hlen. injection Hb as <-. injection Hlen as <-.
  cbv zeta. rewrite set_run. cbn [fst snd]. rewrite !contains_run, !length_run. cbn [fst].
  rewrite lookup_insert_eq, bool_decide_eq_true_2 by eauto.
  split; [done|split; [done|]].
  destruct (h !! key_to_typestring k) as [w|] eqn:E.
  - rewrite bool_decide_eq_true_2 by eauto. by rewrite map_size_insert_Some by eauto.
  - rewrite bool_decide_eq_false_2 by (intros [? ?]; discriminate).
    rewrite map_size_insert_None by done. f_equal. lia.
Qed.

Lemma set_effect_witness :
  let h := <["STRING:a" := "INT:1"]> (<["INT:2" := "STRING:x"]> (∅ : gmap string string)) in
  fst (RedisCache.contains (KStr "b") h) = Ok false /\ fst (RedisCache.length h) = Ok 2 /\
  (let h' := snd (RedisCache.set (KStr "b") (VBool true) h) in
   fst (RedisCache.set (KStr "b") (VBool true) h) = Ok tt /\
   fst (RedisCache.contains (KStr "b") h') = Ok true /\
   fst (RedisCache.length h') = Ok (2 + 1)).
Proof.
  intros h. split; [vm_compute; reflexivity|]. split; [vm_compute; reflexivity|].
  apply (set_effect h (KStr "b") (VBool true) false 2); vm_compute; reflexivity.
Defined.

(** X7: a second [set] of the same key overwrites the first: setting [v1]
    then [v2] leaves the hash exactly as setting [v2] alone. *)
Theorem set_overwrites (h : gmap string string) k v1 v2 :
  (RedisCache.set k v1 ;;; RedisCache.set k v2) h = RedisCache.set k v2 h.
Proof.
  unfold bind at 1. rewrite (set_run h k v1). cbv beta iota.
  by rewrite !set_run, insert_insert_eq.
Qed.

(** X8: [set] and [delete] of one key do not change what [get] and
    [contains] report for any other key. *)
Theorem other_key_untouched (h : gmap string string) k k' v d :
  k <> k' ->
  fst (RedisCache.get k' d (snd (RedisCache.set k v h))) = fst (RedisCache.get k' d h) /\
  fst (RedisCache.get k' d (snd (RedisCache.delete k h))) = fst (RedisCache.get k' d h) /\
  fst (RedisCache.contains k' (snd (RedisCache.set k v h))) = fst (RedisCache.contains k' h) /\
  fst (RedisCache.contains k' (snd (RedisCache.delete k h))) = fst (RedisCache.contains k' h).
Proof.
  intros Hne.
  assert (Hf : key_to_typestring k <> key_to_typestring k')
    by (intros E; apply Hne, key_to_typestring_inj, E).
  rewrite set_run, delete_run. cbn [snd].
  split; [|split; [|split]].
  - apply get_lookup_congr. by apply lookup_insert_ne.
  - apply get_lookup_congr. by apply lookup_delete_ne.
  - rewrite !contains_run. cbn [fst]. by rewrite lookup_insert_ne.
  - rewrite !contains_run. cbn [fst]. by rewrite lookup_delete_ne.
Qed.

Lemma other_key_untouched_witness :
  let h := <["STRING:2" := "INT:1"]> (<["INT:2" := "STRING:x"]> (∅ : gmap string string)) in
  KInt 2 <> KStr "2" /\
  fst (RedisCache.get (KStr "2") None (snd (RedisCache.set (KInt 2) (VInt 5) h))) =
    fst (RedisCache.get (KStr "2") None h) /\
  fst (RedisCache.get (KStr "2") None (snd (RedisCache.delete (KInt 2) h))) =
    fst (RedisCache.get (KStr "2") None h) /\
  fst (RedisCache.contains (KStr "2") (snd (RedisCache.set (KInt 2) (VInt 5) h))) =
    fst (RedisCache.contains (KStr "2") h) /\
  fst (RedisCache.contains (KStr "2") (snd (RedisCache.delete (KInt 2) h))) =
    fst (RedisCache.contains (KStr "2") h).
Proof.
  intros h. split; [discriminate|].
  apply (other_key_untouched h (KInt 2) (KStr "2") (VInt 5) None). discriminate.
Defined.

(** X9: [clear()] never raises and empties the cache: afterwards
    [length()] is 0, [items()] is empty, every [get(key, default)] returns
    [default] and every [contains(key)] is false. *)
Theorem clear_empties (h : gmap string string) :
  let h' := snd (RedisCache.clear h) in
  fst (RedisCache.clear h) = Ok tt /\ RedisCache.length h' = (Ok 0, h') /\
  RedisCache.items h' = (Ok [], h') /\
  forall k d, RedisCache.get k d h' = (Ok d, h') /\ RedisCache.contains k h' = (Ok false, h').
Proof.
  simpl. split; [done|split; [done|split; [done|]]].
  intros k d. split.
  - apply get_run_absent. apply lookup_empty.
  - rewrite contains_run, lookup_empty, bool_decide_eq_false_2 by (intros [? ?]; discriminate).
    done.
Qed.



(** X11: a [pop], [update], [increment] or [decrement] that raises has
    written nothing: the hash is the one it started from. *)
Theorem failed_writes_leave_hash (h : gmap string string) e :
  (forall k d, fst (RedisCache.pop k d h) = Err e -> snd (RedisCache.pop k d h) = h) /\
  (forall m, fst (RedisCache.update m h) = Err e -> snd (RedisCache.update m h) = h) /\
  (forall k a, fst (RedisCache.increment k a h) = Err e ->
               snd (RedisCache.increment k a h) = h) /\
  (forall k a, fst (RedisCache.decrement k a h) = Err e ->
               snd (RedisCache.decrement k a h) = h).
Proof.
  assert (Hinc : forall k a, fst (RedisCache.increment k a h) = Err e ->
                             snd (RedisCache.increment k a h) = h).
  { intros k a. destruct (increment_outcome h k a) as [[e' ->]|[r ->]]; done. }
  split; [|split; [|split]].
  - intros k d. rewrite pop_run. by destruct (fst (RedisCache.get k d h)).
  - intros m. by destruct (update_outcome h m) as [[_ ->]|[_ ->]].
  - exact Hinc.
  - intros k a. apply Hinc.
Qed.

Lemma failed_writes_leave_hash_witness :
  let h := <["STRING:k" := "junk"]> (<["STRING:s" := "STRING:x"]> (∅ : gmap string string)) in
  fst (RedisCache.pop (KStr "k") None h) = Err CorruptDataError /\
  snd (RedisCache.pop (KStr "k") None h) = h /\
  fst (RedisCache.increment (KStr "s") (NInt 1) h) = Err TypeError /\
  snd (RedisCache.increment (KStr "s") (NInt 1) h) = h.
Proof.
  intros h.
  destruct (failed_writes_leave_hash h CorruptDataError) as (Hpop & _).
  destruct (failed_writes_leave_hash h TypeError) as (_ & _ & Hinc & _).
  assert (Hp : fst (RedisCache.pop (KStr "k") None h) = Err CorruptDataError)
    by (vm_compute; reflexivity).
  assert (Hi : fst (RedisCache.increment (KStr "s") (NInt 1) h) = Err TypeError)
    by (vm_compute; reflexivity).
  split; [exact Hp|split; [exact (Hpop _ _ Hp)|split; [exact Hi|exact (Hinc _ _ Hi)]]].
Defined.

(** X12: on a cache-written hash holding an [int] under [key],
    [increment(key, n)] followed by [decrement(key, n)] with an [int] [n]
    gives back exactly the hash it started from. *)
Theorem increment_decrement_restores (h : gmap string string) k z y :
  cache_written h -> fst (RedisCache.get k None h) = Ok (Some (VInt z)) ->
  (RedisCache.increment k (NInt y) ;;; RedisCache.decrement k (NInt y)) h = (Ok tt, h).
Proof.
  intros Hh Hg.
  assert (E' : h !! key_to_typestring k = Some (value_to_typestring (VInt z))).
  { apply (get_written h k (VInt z) Hh).
    pose proof (get_keeps h k None) as Hk.
    destruct (RedisCache.get k None h) as [r h0]. simpl in Hg, Hk. by subst. }
  unfold bind at 1. rewrite (increment_run_stored _ _ _ _ E'). simpl.
  unfold RedisCache.decrement. simpl.
  rewrite (increment_run_stored _ _ _ (VInt (z + y))) by (by rewrite lookup_insert_eq).
  simpl. rewrite insert_insert_eq. replace (z + y + - y) with z by lia.
  by rewrite insert_id.
Qed.

Lemma increment_decrement_restores_witness :
  let h := <["STRING:a" := "INT:1"]> (<["INT:2" := "STRING:x"]> (∅ : gmap string string)) in
  cache_written h /\ fst (RedisCache.get (KStr "a") None h) = Ok (Some (VInt 1)) /\
  (RedisCache.increment (KStr "a") (NInt 5) ;;; RedisCache.decrement (KStr "a") (NInt 5)) h =
    (Ok tt, h).
Proof.
  intros h. assert (Hh : cache_written h)
    by (apply (bool_decide_unpack (cache_written h)); vm_compute; exact I).
  assert (Hg : fst (RedisCache.get (KStr "a") None h) = Ok (Some (VInt 1)))
    by (vm_compute; reflexivity).
  split; [exact Hh|split; [exact Hg|]].
  exact (increment_decrement_restores h (KStr "a") 1 5 Hh Hg).
Defined.

(** X13: [decrement(key, n)] with an [int] [n] on a stored [int] [z]
    succeeds, and [get(key)] then returns the [int] [z - n]. *)
Theorem decrement_int (h : gmap string string) k z y :
  fst (RedisCache.get k None h) = Ok (Some (VInt z)) ->
  fst (RedisCache.decrement k (NInt y) h) = Ok tt /\
  fst (RedisCache.get k None (snd (RedisCache.decrement k (NInt y) h))) =
    Ok (Some (VInt (z - y))).
Proof.
  intros Hg. destruct (get_found h k _ Hg) as [w [E Hw]].
  unfold RedisCache.decrement. rewrite increment_run, (get_run_present _ _ _ _ E), Hw.
  simpl. split; [done|].
  rewrite (get_run_stored _ _ _ (VInt (z + - y))) by (by rewrite lookup_insert_eq).
  simpl. by rewrite Z.add_opp_r.
Qed.

Lemma decrement_int_witness :
  let h := <["STRING:a" := "INT:1"]> (<["INT:2" := "STRING:x"]> (∅ : gmap string string)) in
  fst (RedisCache.get (KStr "a") None h) = Ok (Some (VInt 1)) /\
  fst (RedisCache.decrement (KStr "a") (NInt 3) h) = Ok tt /\
  fst (RedisCache.get (KStr "a") None (snd (RedisCache.decrement (KStr "a") (NInt 3) h))) =
    Ok (Some (VInt (1 - 3))).
Proof.
  intros h. assert (Hg : fst (RedisCache.get (KStr "a") None h) = Ok (Some (VInt 1)))
    by (vm_compute; reflexivity).
  split; [exact Hg|]. exact (decrement_int h (KStr "a") 1 3 Hg).
Defined.

(** X14: [update(mapping)] works as [dict.update] on whatever the cache
    held: afterwards [get] returns the mapping's value for each of its keys,
    and for every other key the same result as before. *)
Theorem update_merges (h : gmap string string) m k :
  NoDup (map fst m) ->
  (forall v, (k, v) ∈ m ->
     fst (RedisCache.get k None (snd (RedisCache.update m h))) = Ok (Some v)) /\
  (k ∉ map fst m ->
     fst (RedisCache.get k None (snd (RedisCache.update m h))) = fst (RedisCache.get k None h)).
Proof.
  intros Hnd. destruct (update_outcome h m) as [[-> ->]|[_ ->]]; simpl.
  - split; [|done]. intros v Hin. by apply elem_of_nil in Hin.
  - split.
    + intros v Hin. rewrite (get_run_stored _ _ _ v); [done|].
      apply (set_each_lookup m Hnd h k v). by left.
    + intros Hk. apply get_lookup_congr. by apply set_each_lookup_other.
Qed.

Lemma update_merges_witness :
  let h := <["STRING:a" := "INT:1"]> (<["INT:2" := "STRING:x"]> (∅ : gmap string string)) in
  let m := [(KStr "a", VStr "y"); (KStr "b", VInt 7)] in
  NoDup (map fst m) /\
  fst (RedisCache.get (KStr "a") None (snd (RedisCache.update m h))) = Ok (Some (VStr "y")) /\
  fst (RedisCache.get (KInt 2) None (snd (RedisCache.update m h))) =
    fst (RedisCache.get (KInt 2) None h).
Proof.
  intros h m.
  assert (Hnd : NoDup (map fst m))
    by (apply (bool_decide_unpack (NoDup (map fst m))); vm_compute; exact I).
  split; [exact Hnd|split].
  - apply (proj1 (update_merges h m (KStr "a") Hnd)). apply elem_of_cons. by left.
  - apply (proj2 (update_merges h m (KInt 2) Hnd)).
    apply (bool_decide_unpack (KInt 2 ∉ map fst m)). vm_compute. exact I.
Defined.
